(** * simdCalloc: a shallow embedding of [simdCalloc.h]

    The header defines three C functions:
    - [calloc_simd]        (overflow check, alignment choice, allocation, clearing),
    - [round_to_alignment] (rounding a byte count up to a multiple of the alignment),
    - [simd_clear_mem]     (chunked zero stores followed by a byte-wise tail loop).

    Modelling choices.
    - [size_t] is the 64-bit unsigned word of the x86-64 targets that
      [immintrin.h] addresses: a [Z] in [0, SIZE_MAX], every arithmetic
      operation followed by its wrap-around [to_size_t].
    - [int] is the 32-bit signed integer; incrementing [INT_MAX] is undefined
      behaviour, which the model reports as the outcome [Undefined], like a
      division by zero, an out-of-bounds store and a misaligned vector store.
    - The conditional compilation ([#if defined(__AVX512F__)] ...) is the
      enumeration [build]; every function takes the build as an argument.
    - A block of memory is its start address, its length and its contents as a
      function from byte offsets to byte values.
    - [aligned_alloc] belongs to the C library: it is a variable of the section
      [Allocator], and the calls made to it are recorded in a trace. *)

From Equations Require Import Equations.
From Stdlib Require Import ZArith List Bool Lia.
Import ListNotations.

Local Open Scope Z_scope.

(** ** Machine integers *)

Definition SIZE_MAX : Z := 2 ^ 64 - 1.
Definition INT_MAX : Z := 2 ^ 31 - 1.

(** Wrap-around of an unsigned [size_t] computation. *)
Definition to_size_t (z : Z) : Z := z mod 2 ^ 64.

(** The values a [size_t] variable can hold. *)
Definition is_size_t (z : Z) : Prop := 0 <= z <= SIZE_MAX.

(** ** Outcomes of a C computation *)

Inductive outcome (A : Type) : Type :=
| Done (a : A)
| Undefined.
Arguments Done {A} a.
Arguments Undefined {A}.

Definition bind {A B : Type} (c : outcome A) (k : A -> outcome B) : outcome B :=
  match c with
  | Done a => k a
  | Undefined => Undefined
  end.

Notation "x <- c ;; k" := (bind c (fun x => k))
  (at level 61, c at next level, right associativity).

(** ** Build variants: which of the vector macros is defined *)

Inductive build : Type := AVX512F | AVX2 | SSE2 | NoVector.

(** Lines 43-51 of [calloc_simd]: [alignment = 16], overwritten under the
    [#if] chain. *)
Definition alignment (b : build) : Z :=
  match b with
  | AVX512F => 64
  | AVX2 => 32
  | SSE2 => 16
  | NoVector => 16
  end.

(** The [registerSize] assigned in each branch of [simd_clear_mem]. *)
Definition registerSize (b : build) : Z :=
  match b with
  | AVX512F => 64
  | AVX2 => 32
  | SSE2 => 16
  | NoVector => 8
  end.

(** ** [round_to_alignment]

    [return (size + alignment - 1) / alignment * alignment;] on [size_t]:
    each operation wraps, and the division is undefined for a zero divisor. *)
Definition round_to_alignment (size alignment : Z) : outcome Z :=
  if alignment =? 0 then Undefined
  else
    let sum := to_size_t (to_size_t (size + alignment) - 1) in
    Done (to_size_t (to_size_t (sum / alignment) * alignment)).

(** The inputs on which none of the operations of the rounding formula leaves
    the range of [size_t]. *)
Definition rounding_fits (size alignment : Z) : Prop :=
  is_size_t size /\ is_size_t alignment /\ 0 <= size + alignment - 1 <= SIZE_MAX.

(** ** Memory blocks *)

Record block : Type := mkBlock {
  base : Z;            (* address of the first byte *)
  len : Z;             (* number of bytes that may be accessed *)
  contents : Z -> Z    (* byte value at each offset *)
}.

(** A store of [width] zero bytes at byte offset [off], whose address has to
    be a multiple of [align].  Writing outside the block or at a misaligned
    address is undefined. *)
Definition store_zero (align width : Z) (m : block) (off : Z) : outcome block :=
  if (0 <=? off) && (off + width <=? len m) && ((base m + off) mod align =? 0)
  then Done (mkBlock (base m) (len m)
               (fun x => if (off <=? x) && (x <? off + width) then 0 else contents m x))
  else Undefined.

(** ** [simd_clear_mem] *)

(** The store of one iteration of the chunked loop.  In the vector builds it is
    [_mm*_store_pd(&(((double* )memory)[i*(registerSize / 8)]), zero)]: the index
    [i*(registerSize / 8)] is computed on [size_t], it counts doubles of 8
    bytes, and the store writes [registerSize] bytes at an address that has to
    be [registerSize]-aligned.  In the build without vectors it is
    [((double* ) memory)[i] = 0.0], the 8 zero bytes of the double [0.0]. *)
Definition vector_store (b : build) (m : block) (i : Z) : outcome block :=
  match b with
  | NoVector => store_zero 8 8 m (8 * i)
  | _ =>
    store_zero (registerSize b) (registerSize b) m
      (8 * to_size_t (to_size_t i * (registerSize b / 8)))
  end.

(** [for (int i = 0; i < vectorSteps; i++) { store }], started at [i] with the
    block [m].  The comparison converts the [int] to [size_t]; [i++] is
    undefined once [i] has reached [INT_MAX].  [n] counts the iterations
    completed so far and is returned with the final block. *)
Equations? vector_loop (b : build) (vectorSteps i : Z) (m : block) (n : Z)
  : outcome (block * Z) by wf (Z.to_nat (vectorSteps - i)) lt :=
  vector_loop b vectorSteps i m n with Z_lt_dec (to_size_t i) vectorSteps => {
    | right _ => Done (m, n)
    | left _ with vector_store b m i => {
        | Undefined => Undefined
        | Done m' with Z_lt_dec i INT_MAX => {
            | left _ => vector_loop b vectorSteps (i + 1) m' (n + 1)
            | right _ => Undefined } } }.
Proof.
  unfold to_size_t, INT_MAX in *.
  pose proof (Z.mod_pos_bound i (2 ^ 64) ltac:(lia)).
  destruct (Z_lt_dec i 0); [lia|].
  rewrite Z.mod_small in * by lia. lia.
Qed.

(** [for (size_t i = start; i < space; i++) ((unsigned char* ) memory)[i] = 0;].
    The increment cannot wrap, since [i < space <= SIZE_MAX]
    (lemma [tail_increment_no_wrap]). *)
Equations? tail_loop (space i : Z) (m : block) : outcome block
  by wf (Z.to_nat (space - i)) lt :=
  tail_loop space i m with Z_lt_dec i space => {
    | right _ => Done m
    | left _ with store_zero 1 1 m i => {
        | Undefined => Undefined
        | Done m' => tail_loop space (i + 1) m' } }.
Proof. lia. Qed.

Definition simd_clear_mem (b : build) (memory : block) (space : Z) : outcome block :=
  let vectorSteps := to_size_t (space / registerSize b) in
  r <- vector_loop b vectorSteps 0 memory 0 ;;
  tail_loop space (to_size_t (vectorSteps * registerSize b)) (fst r).

(** ** [calloc_simd] *)

(** The calls that [calloc_simd] makes, in order. *)
Inductive event : Type :=
| CallAlignedAlloc (alignment size : Z)
| CallClearMem (space : Z).

Section Allocator.

(** [aligned_alloc(alignment, size)] of the C library: [None] is [NULL]. *)
Variable aligned_alloc : Z -> Z -> option block.

(** The result is the trace of calls and the returned pointer, [None] for
    [NULL]. *)
Definition calloc_simd (b : build) (items size : Z)
  : list event * outcome (option block) :=
  if negb (items =? 0) && (size >? SIZE_MAX / items) then ([], Done None)
  else
    let alignment := alignment b in
    match round_to_alignment (to_size_t (items * size)) alignment with
    | Undefined => ([], Undefined)
    | Done total =>
      match aligned_alloc alignment total with
      | None => ([CallAlignedAlloc alignment total], Done None)
      | Some ptr =>
        ([CallAlignedAlloc alignment total; CallClearMem total],
         m <- simd_clear_mem b ptr total ;; Done (Some m))
      end
    end.

End Allocator.

(** What C11 promises of a successful [aligned_alloc]: a block of the
    requested length at an address that is a multiple of the alignment. *)
Definition allocator_contract (alloc : Z -> Z -> option block) : Prop :=
  forall a n blk, alloc a n = Some blk -> len blk = n /\ base blk mod a = 0.

(** [cleared lo hi m m']: [m'] is [m] with the bytes at offsets [lo, hi) set
    to zero, and nothing else changed. *)
Definition cleared (lo hi : Z) (m m' : block) : Prop :=
  base m' = base m /\ len m' = len m /\
  forall x, contents m' x = if (lo <=? x) && (x <? hi) then 0 else contents m x.

(** The conditions under which [simd_clear_mem] turns out to have defined
    behaviour: the block holds [space] bytes, it is aligned for the chunk
    stores if there is any, and the [int] counter can count the chunks. *)
Definition clearable (b : build) (m : block) (space : Z) : Prop :=
  space <= len m /\
  (registerSize b <= space -> base m mod registerSize b = 0) /\
  space / registerSize b <= INT_MAX.

(** Every byte of the block is zero. *)
Definition all_zero (m : block) : Prop :=
  forall off, 0 <= off < len m -> contents m off = 0.

(** An allocator that always succeeds and hands out blocks full of [0xAA]. *)
Definition generous_alloc (a n : Z) : option block :=
  Some (mkBlock (4096 * a) n (fun _ => 170)).

(** An allocator that is out of memory. *)
Definition exhausted_alloc (a n : Z) : option block := None.

(** * Properties

    ** Rounding *)

Section Rounding.

Lemma to_size_t_small (z : Z) : is_size_t z -> to_size_t z = z.
Proof.
  unfold is_size_t, to_size_t, SIZE_MAX. intros H.
  apply Z.mod_small. lia.
Qed.

Lemma to_size_t_range (z : Z) : is_size_t (to_size_t z).
Proof.
  unfold is_size_t, to_size_t, SIZE_MAX.
  pose proof (Z.mod_pos_bound z (2 ^ 64) ltac:(lia)). lia.
Qed.

(** The intermediate sum [size + alignment] may wrap as long as the
    decrement brings it back into range. *)
Lemma to_size_t_sub_l (x y : Z) : to_size_t (to_size_t x - y) = to_size_t (x - y).
Proof. unfold to_size_t. apply Zminus_mod_idemp_l. Qed.

(** Without wrap-around the formula is the mathematical one. *)
Lemma round_to_alignment_exact (size a : Z) :
  0 < a -> rounding_fits size a ->
  round_to_alignment size a = Done ((size + a - 1) / a * a).
Proof.
  intros Ha (Hs & Hal & Hsum).
  unfold round_to_alignment.
  destruct (Z.eqb_spec a 0) as [->|_]; [lia|].
  cbv zeta.
  assert (Hq : 0 <= (size + a - 1) / a * a <= size + a - 1).
  { pose proof (Z.mul_div_le (size + a - 1) a Ha).
    pose proof (Z.div_pos (size + a - 1) a ltac:(lia) Ha).
    nia. }
  assert (Hd : 0 <= (size + a - 1) / a <= size + a - 1).
  { split; [apply Z.div_pos; lia|].
    apply Z.div_le_upper_bound; nia. }
  rewrite to_size_t_sub_l.
  rewrite (to_size_t_small (size + a - 1)) by exact Hsum.
  rewrite (to_size_t_small ((size + a - 1) / a)) by (unfold is_size_t in *; lia).
  rewrite to_size_t_small by (unfold is_size_t in *; lia).
  reflexivity.
Qed.

(** The mathematical formula rounds up: the result is the least multiple of
    [a] that is at least [size]. *)
Lemma round_up_bounds (size a : Z) :
  0 < a -> 0 <= size ->
  let r := (size + a - 1) / a * a in
  size <= r /\ r - size < a /\ r mod a = 0.
Proof.
  intros Ha Hs r. subst r.
  pose proof (Z.div_mod (size + a - 1) a ltac:(lia)) as Hdm.
  pose proof (Z.mod_pos_bound (size + a - 1) a Ha) as Hm.
  repeat split.
  - lia.
  - lia.
  - apply Z.mod_mul. lia.
Qed.

(** Once the addition wraps the quotient is zero: the wrapped sum is
    [size - 1 - SIZE_MAX + a - 1 < a]. *)
Lemma round_to_alignment_wrapped (size a : Z) :
  0 < a -> is_size_t a -> is_size_t size ->
  SIZE_MAX < size + a - 1 ->
  round_to_alignment size a = Done 0.
Proof.
  intros Ha Hal Hs Hwrap.
  unfold round_to_alignment.
  destruct (Z.eqb_spec a 0) as [->|_]; [lia|].
  cbv zeta. rewrite to_size_t_sub_l.
  assert (Hsum : to_size_t (size + a - 1) = size + a - 1 - 2 ^ 64).
  { unfold to_size_t, is_size_t, SIZE_MAX in *.
    symmetry. apply (Z.mod_unique _ _ 1); lia. }
  rewrite Hsum.
  rewrite Z.div_small by (unfold is_size_t, SIZE_MAX in *; lia).
  reflexivity.
Qed.

(** C8.  For every non-overflowing pair (size, alignment), with a positive
    alignment as the data model has it, [round_to_alignment] returns a value
    that is at least [size] and exceeds it by less than [alignment]. *)
Theorem round_to_alignment_bounds (size a : Z) :
  0 < a -> rounding_fits size a ->
  exists r, round_to_alignment size a = Done r /\ size <= r /\ r - size < a.
Proof.
  intros Ha Hfit.
  exists ((size + a - 1) / a * a).
  split; [apply round_to_alignment_exact; assumption|].
  destruct Hfit as ((Hs & _) & _).
  pose proof (round_up_bounds size a Ha Hs) as H. cbv zeta in H. tauto.
Qed.

Lemma round_to_alignment_bounds_witness :
  exists r, round_to_alignment 15 16 = Done r /\ 15 <= r /\ r - 15 < 16.
Proof.
  apply (round_to_alignment_bounds 15 16).
  - lia.
  - unfold rounding_fits, is_size_t, SIZE_MAX. lia.
Defined.

(** A multiple of the alignment is a fixed point of the rounding. *)
Lemma round_to_alignment_multiple (q a : Z) :
  0 < a -> 0 <= q -> rounding_fits (q * a) a ->
  round_to_alignment (q * a) a = Done (q * a).
Proof.
  intros Ha Hq Hfit.
  rewrite round_to_alignment_exact by assumption.
  f_equal. f_equal.
  symmetry. apply (Z.div_unique _ _ _ (a - 1)); lia.
Qed.

(** C7.  [round_to_alignment] is idempotent: for every non-overflowing size
    and every alignment used by a build (16, 32 or 64), rounding the rounded
    value again returns it unchanged. *)
Theorem round_to_alignment_idempotent (size a : Z) :
  a = 16 \/ a = 32 \/ a = 64 -> rounding_fits size a ->
  exists r, round_to_alignment size a = Done r /\ round_to_alignment r a = Done r.
Proof.
  intros Ha Hfit.
  assert (Hpos : 0 < a) by lia.
  exists ((size + a - 1) / a * a).
  split; [apply round_to_alignment_exact; assumption|].
  destruct Hfit as (Hs & Hal & Hsum).
  pose proof (Z.div_pos (size + a - 1) a ltac:(unfold is_size_t in *; lia) Hpos) as Hq.
  pose proof (Z.mul_div_le (size + a - 1) a Hpos) as Hle.
  apply round_to_alignment_multiple; try assumption.
  unfold rounding_fits, is_size_t, SIZE_MAX in *.
  set (q := (size + a - 1) / a) in *.
  destruct Ha as [->|[->| ->]]; lia.
Qed.

Lemma round_to_alignment_idempotent_witness :
  exists r, round_to_alignment 15 16 = Done r /\ round_to_alignment r 16 = Done r.
Proof.
  apply (round_to_alignment_idempotent 15 16).
  - left. reflexivity.
  - unfold rounding_fits, is_size_t, SIZE_MAX. lia.
Defined.

(** C9 as stated fails: the pair (5, 0) overflows nowhere, and the division
    by the zero alignment is undefined. *)
Lemma round_to_alignment_not_total :
  ~ (forall size a, rounding_fits size a ->
       exists r, round_to_alignment size a = Done r).
Proof.
  intros H.
  destruct (H 5 0) as [r Hr].
  - unfold rounding_fits, is_size_t, SIZE_MAX. lia.
  - discriminate Hr.
Qed.

(** C9, amended.  [round_to_alignment] is a function of its two arguments
    alone, and for every non-overflowing input whose alignment is not zero it
    yields a defined result in the range of [size_t]. *)
Theorem round_to_alignment_total (size a : Z) :
  a <> 0 -> rounding_fits size a ->
  exists r, round_to_alignment size a = Done r /\ is_size_t r.
Proof.
  intros Ha Hfit.
  unfold round_to_alignment.
  destruct (Z.eqb_spec a 0) as [E|_]; [contradiction|].
  eexists. split; [reflexivity|]. apply to_size_t_range.
Qed.

Lemma round_to_alignment_total_witness :
  exists r, round_to_alignment 5 3 = Done r /\ is_size_t r.
Proof.
  apply (round_to_alignment_total 5 3).
  - lia.
  - unfold rounding_fits, is_size_t, SIZE_MAX. lia.
Defined.

End Rounding.

(** ** The zero-fill *)

Section ZeroFill.

Lemma registerSize_pos (b : build) : 0 < registerSize b.
Proof. destruct b; reflexivity. Qed.

Lemma vector_loop_step b steps i m n :
  vector_loop b steps i m n =
  if Z_lt_dec (to_size_t i) steps then
    match vector_store b m i with
    | Undefined => Undefined
    | Done m' =>
      if Z_lt_dec i INT_MAX then vector_loop b steps (i + 1) m' (n + 1)
      else Undefined
    end
  else Done (m, n).
Proof.
  rewrite vector_loop_equation_1.
  destruct (Z_lt_dec (to_size_t i) steps); simpl; [|reflexivity].
  destruct (vector_store b m i); simpl; [|reflexivity].
  destruct (Z_lt_dec i INT_MAX); reflexivity.
Qed.

Lemma tail_loop_step space i m :
  tail_loop space i m =
  if Z_lt_dec i space then
    match store_zero 1 1 m i with
    | Undefined => Undefined
    | Done m' => tail_loop space (i + 1) m'
    end
  else Done m.
Proof.
  rewrite tail_loop_equation_1.
  destruct (Z_lt_dec i space); simpl; [|reflexivity].
  destruct (store_zero 1 1 m i); reflexivity.
Qed.

(** The increment of the tail loop stays in range. *)
Lemma tail_increment_no_wrap (space i : Z) :
  is_size_t space -> 0 <= i < space -> to_size_t (i + 1) = i + 1.
Proof.
  intros Hs Hi. apply to_size_t_small. unfold is_size_t in *. lia.
Qed.

Lemma int_as_size_t (i : Z) : 0 <= i <= INT_MAX -> to_size_t i = i.
Proof.
  intros H. apply to_size_t_small. unfold is_size_t, SIZE_MAX, INT_MAX in *. lia.
Qed.

(** A store inside the block at an aligned address succeeds and clears
    exactly its [width] bytes. *)
Lemma store_zero_cleared (al w : Z) (m : block) (off : Z) :
  0 <= off -> off + w <= len m -> (base m + off) mod al = 0 ->
  exists m', store_zero al w m off = Done m' /\ cleared off (off + w) m m'.
Proof.
  intros H0 H1 H2. unfold store_zero.
  destruct (Z.leb_spec 0 off); [|lia].
  destruct (Z.leb_spec (off + w) (len m)); [|lia].
  rewrite H2. simpl.
  eexists. split; [reflexivity|].
  unfold cleared. simpl. auto.
Qed.

(** In every build the store of iteration [i] writes [registerSize] bytes at
    byte offset [i * registerSize]. *)
Lemma vector_store_chunk (b : build) (m : block) (i : Z) :
  0 <= i <= INT_MAX ->
  vector_store b m i =
  store_zero (registerSize b) (registerSize b) m (i * registerSize b).
Proof.
  intros Hi. unfold vector_store.
  destruct b; simpl registerSize; try (f_equal; lia);
    rewrite (int_as_size_t i Hi);
    match goal with |- context [?w / 8] =>
      let v := eval vm_compute in (w / 8) in change (w / 8) with v end;
    (rewrite to_size_t_small
      by (unfold is_size_t, SIZE_MAX, INT_MAX in *; lia));
    f_equal; lia.
Qed.

Lemma cleared_trans (lo mid hi : Z) (m m1 m2 : block) :
  lo <= mid <= hi ->
  cleared lo mid m m1 -> cleared mid hi m1 m2 -> cleared lo hi m m2.
Proof.
  intros Hord (Hb1 & Hl1 & Hc1) (Hb2 & Hl2 & Hc2).
  repeat split; [congruence | congruence |].
  intros x. rewrite Hc2, Hc1.
  destruct (Z.leb_spec mid x), (Z.ltb_spec x hi), (Z.leb_spec lo x),
    (Z.ltb_spec x mid); simpl; try reflexivity; lia.
Qed.

Lemma cleared_empty (lo : Z) (m : block) : cleared lo lo m m.
Proof.
  repeat split. intros x.
  destruct (Z.leb_spec lo x), (Z.ltb_spec x lo); simpl; try reflexivity; lia.
Qed.

(** The chunked loop, started at [i] in a block that holds [steps] chunks,
    runs [steps - i] iterations and clears the chunks [i .. steps - 1],
    provided the counter can reach [steps]. *)
Lemma vector_loop_clears (b : build) (steps : Z) :
  steps <= INT_MAX ->
  forall (k : nat) (i : Z) (m : block) (n : Z),
    Z.of_nat k = steps - i -> 0 <= i ->
    steps * registerSize b <= len m ->
    base m mod registerSize b = 0 ->
    exists m', vector_loop b steps i m n = Done (m', n + (steps - i)) /\
               cleared (i * registerSize b) (steps * registerSize b) m m'.
Proof.
  intros Hsteps. pose proof (registerSize_pos b) as Hrs.
  induction k as [|k IH]; intros i m n Hk Hi Hlen Hbase;
    rewrite vector_loop_step, (int_as_size_t i) by lia.
  - destruct (Z_lt_dec i steps); [lia|].
    exists m. split; [f_equal; f_equal; lia|].
    replace steps with i by lia. apply cleared_empty.
  - destruct (Z_lt_dec i steps); [|lia].
    rewrite vector_store_chunk by lia.
    destruct (store_zero_cleared (registerSize b) (registerSize b) m
                (i * registerSize b)) as (m1 & -> & Hc1).
    + nia.
    + nia.
    + rewrite Z.mod_add by lia. exact Hbase.
    + destruct (Z_lt_dec i INT_MAX); [|lia].
      destruct Hc1 as (Hb1 & Hl1 & Hc1).
      destruct (IH (i + 1) m1 (n + 1)) as (m' & -> & Hc'); try lia;
        try congruence.
      exists m'. split; [f_equal; f_equal; lia|].
      apply (cleared_trans _ (i * registerSize b + registerSize b) _ m m1 m').
      * nia.
      * repeat split; assumption.
      * replace (i * registerSize b + registerSize b)
          with ((i + 1) * registerSize b) by ring.
        exact Hc'.
Qed.

(** With more than [INT_MAX] chunks to write, the loop ends in the undefined
    increment of [i = INT_MAX] (or in an undefined store before that). *)
Lemma vector_loop_overflows (b : build) (steps : Z) :
  INT_MAX < steps ->
  forall (k : nat) (i : Z) (m : block) (n : Z),
    Z.of_nat k = INT_MAX - i -> 0 <= i ->
    vector_loop b steps i m n = Undefined.
Proof.
  intros Hsteps.
  induction k as [|k IH]; intros i m n Hk Hi;
    rewrite vector_loop_step, (int_as_size_t i) by lia;
    (destruct (Z_lt_dec i steps); [|lia]);
    (destruct (vector_store b m i) as [m1|]; [|reflexivity]).
  - destruct (Z_lt_dec i INT_MAX); [lia|reflexivity].
  - destruct (Z_lt_dec i INT_MAX); [|reflexivity].
    apply IH; lia.
Qed.

(** The byte loop clears [i, space). *)
Lemma tail_loop_clears (space : Z) :
  forall (k : nat) (i : Z) (m : block),
    Z.of_nat k = space - i -> 0 <= i -> space <= len m ->
    exists m', tail_loop space i m = Done m' /\ cleared i space m m'.
Proof.
  induction k as [|k IH]; intros i m Hk Hi Hlen; rewrite tail_loop_step.
  - destruct (Z_lt_dec i space); [lia|].
    exists m. split; [reflexivity|].
    replace space with i by lia. apply cleared_empty.
  - destruct (Z_lt_dec i space); [|lia].
    destruct (store_zero_cleared 1 1 m i) as (m1 & -> & Hc1); try lia.
    + apply Z.mod_1_r.
    + destruct (IH (i + 1) m1) as (m' & -> & Hc'); try lia.
      * destruct Hc1 as (_ & -> & _). exact Hlen.
      * exists m'. split; [reflexivity|].
        apply (cleared_trans _ (i + 1) _ m m1 m'); [lia | exact Hc1 | exact Hc'].
Qed.

Lemma steps_bounds (b : build) (space : Z) :
  is_size_t space ->
  0 <= space / registerSize b <= space /\
  0 <= space / registerSize b * registerSize b <= space.
Proof.
  intros Hs. pose proof (registerSize_pos b) as Hrs.
  unfold is_size_t in Hs.
  pose proof (Z.div_pos space (registerSize b) ltac:(lia) Hrs).
  pose proof (Z.mul_div_le space (registerSize b) Hrs).
  nia.
Qed.

(** [simd_clear_mem] on a block of at least [space] bytes at an aligned
    address, when the step count fits the counter: the bytes [0, space) are
    zero afterwards and the rest of the block is unchanged. *)
Lemma simd_clear_mem_clears (b : build) (m : block) (space : Z) :
  is_size_t space -> space <= len m -> base m mod registerSize b = 0 ->
  space / registerSize b <= INT_MAX ->
  exists m', simd_clear_mem b m space = Done m' /\ cleared 0 space m m'.
Proof.
  intros Hs Hlen Hbase Hsteps.
  destruct (steps_bounds b space Hs) as (Hq & Hqr).
  unfold simd_clear_mem. cbv zeta.
  rewrite (to_size_t_small (space / registerSize b))
    by (unfold is_size_t in *; lia).
  rewrite (to_size_t_small (space / registerSize b * registerSize b))
    by (unfold is_size_t in *; lia).
  destruct (vector_loop_clears b (space / registerSize b) Hsteps
              (Z.to_nat (space / registerSize b)) 0 m 0)
    as (m1 & -> & Hc1); try lia.
  simpl bind. simpl fst.
  destruct (tail_loop_clears space
              (Z.to_nat (space - space / registerSize b * registerSize b))
              (space / registerSize b * registerSize b) m1)
    as (m2 & -> & Hc2); try lia.
  - destruct Hc1 as (_ & -> & _). exact Hlen.
  - exists m2. split; [reflexivity|].
    apply (cleared_trans 0 (space / registerSize b * registerSize b) space m m1 m2);
      [lia | exact Hc1 | exact Hc2].
Qed.

Lemma simd_clear_mem_overflows (b : build) (m : block) (space : Z) :
  is_size_t space -> INT_MAX < space / registerSize b ->
  simd_clear_mem b m space = Undefined.
Proof.
  intros Hs Hsteps.
  destruct (steps_bounds b space Hs) as (Hq & _).
  unfold simd_clear_mem. cbv zeta.
  rewrite (to_size_t_small (space / registerSize b))
    by (unfold is_size_t in *; lia).
  rewrite (vector_loop_overflows b _ Hsteps (Z.to_nat INT_MAX) 0 m 0)
    by (unfold INT_MAX; lia).
  reflexivity.
Qed.

(** The run of the chunked loop towards [steps] passes through the state that
    the loop towards any earlier [k] ends in. *)
Lemma vector_loop_split (b : build) (steps k : Z) :
  k <= steps -> k <= INT_MAX ->
  forall (j : nat) (i : Z) (m : block) (n : Z),
    Z.of_nat j = k - i -> 0 <= i ->
    vector_loop b steps i m n =
    (r <- vector_loop b k i m n ;; vector_loop b steps k (fst r) (snd r)).
Proof.
  intros Hk Hmax.
  induction j as [|j IH]; intros i m n Hj Hi.
  - replace i with k by lia.
    rewrite (vector_loop_step b k k), (int_as_size_t k) by lia.
    destruct (Z_lt_dec k k); [lia|reflexivity].
  - rewrite (vector_loop_step b steps i), (vector_loop_step b k i),
      (int_as_size_t i) by lia.
    destruct (Z_lt_dec i steps); [|lia].
    destruct (Z_lt_dec i k); [|lia].
    destruct (vector_store b m i) as [m1|]; [|reflexivity].
    destruct (Z_lt_dec i INT_MAX); [|lia].
    apply IH; lia.
Qed.

(** With the counter at [INT_MAX] and chunks left, the loop stores one more
    chunk and then increments the counter, which is undefined. *)
Lemma vector_loop_at_int_max (b : build) (steps : Z) (m : block) (n : Z) :
  INT_MAX < steps ->
  vector_loop b steps INT_MAX m n = (_ <- vector_store b m INT_MAX ;; Undefined).
Proof.
  intros Hsteps.
  rewrite vector_loop_step, (int_as_size_t INT_MAX) by (unfold INT_MAX; lia).
  destruct (Z_lt_dec INT_MAX steps); [|lia].
  destruct (vector_store b m INT_MAX); [|reflexivity].
  destruct (Z_lt_dec INT_MAX INT_MAX); [lia|reflexivity].
Qed.

(** In a block that is aligned and holds them, the chunks [0 .. INT_MAX] are
    all stored before the loop reaches the undefined increment: the run goes
    through the block [m1] with the counter at [INT_MAX], stores that chunk,
    giving [m2], and has nowhere defined to go from there. *)
Lemma vector_loop_stops_at_int_max (b : build) (steps : Z) (m : block) :
  INT_MAX < steps ->
  (INT_MAX + 1) * registerSize b <= len m ->
  base m mod registerSize b = 0 ->
  exists m1 m2,
    vector_loop b steps 0 m 0 = vector_loop b steps INT_MAX m1 INT_MAX /\
    vector_store b m1 INT_MAX = Done m2 /\
    vector_loop b steps INT_MAX m1 INT_MAX = Undefined /\
    cleared 0 ((INT_MAX + 1) * registerSize b) m m2.
Proof.
  intros Hsteps Hlen Hbase. pose proof (registerSize_pos b) as Hrs.
  assert (Hmax : 0 <= INT_MAX) by (unfold INT_MAX; lia).
  destruct (vector_loop_clears b INT_MAX (Z.le_refl _) (Z.to_nat INT_MAX) 0 m 0)
    as (m1 & Hrun & Hc1); try lia; try assumption.
  replace (0 + (INT_MAX - 0)) with INT_MAX in Hrun by lia.
  destruct Hc1 as (Hb1 & Hl1 & Hz1).
  destruct (store_zero_cleared (registerSize b) (registerSize b) m1
              (INT_MAX * registerSize b)) as (m2 & Hstore & Hc2).
  - lia.
  - rewrite Hl1. lia.
  - rewrite Hb1, Z.mod_add by lia. exact Hbase.
  - rewrite <- vector_store_chunk in Hstore by lia.
    exists m1, m2. split; [|split; [|split]].
    + rewrite (vector_loop_split b steps INT_MAX ltac:(lia) (Z.le_refl _)
                 (Z.to_nat INT_MAX) 0 m 0) by lia.
      rewrite Hrun. reflexivity.
    + exact Hstore.
    + rewrite vector_loop_at_int_max, Hstore by assumption. reflexivity.
    + apply (cleared_trans 0 (INT_MAX * registerSize b) _ m m1 m2).
      * lia.
      * repeat split; assumption.
      * replace ((INT_MAX + 1) * registerSize b)
          with (INT_MAX * registerSize b + registerSize b) by ring.
        exact Hc2.
Qed.

End ZeroFill.

(** ** The allocation *)

Section Calloc.

Variable alloc : Z -> Z -> option block.

(** The guard of [calloc_simd] lets through exactly the pairs whose product
    fits the word. *)
Lemma overflow_check_passes (items size : Z) :
  is_size_t items -> is_size_t size -> items * size <= SIZE_MAX ->
  negb (items =? 0) && (size >? SIZE_MAX / items) = false.
Proof.
  intros Hi Hs Hprod.
  destruct (Z.eqb_spec items 0) as [|Hnz]; [reflexivity|].
  simpl. unfold is_size_t in *.
  assert (size <= SIZE_MAX / items)
    by (apply Z.div_le_lower_bound; lia).
  rewrite Z.gtb_ltb. apply Z.ltb_ge. assumption.
Qed.

Lemma overflow_check_fails (items size : Z) :
  items <> 0 -> size > SIZE_MAX / items ->
  negb (items =? 0) && (size >? SIZE_MAX / items) = true.
Proof.
  intros Hnz Hgt.
  destruct (Z.eqb_spec items 0); [contradiction|].
  simpl. rewrite Z.gtb_ltb. apply Z.ltb_lt. lia.
Qed.

Lemma alignment_pos (b : build) : 0 < alignment b.
Proof. destruct b; reflexivity. Qed.

Lemma alignment_is_size_t (b : build) : is_size_t (alignment b).
Proof. destruct b; unfold is_size_t, SIZE_MAX; simpl; lia. Qed.

(** An address aligned for the allocation is aligned for the stores. *)
Lemma aligned_for_stores (b : build) (addr : Z) :
  addr mod alignment b = 0 -> addr mod registerSize b = 0.
Proof.
  destruct b; simpl; trivial.
  intros H. Z.div_mod_to_equations. lia.
Qed.

(** Whatever [simd_clear_mem] returns has its first [space] bytes cleared. *)
Lemma simd_clear_mem_done (b : build) (m m' : block) (space : Z) :
  is_size_t space -> space <= len m -> base m mod registerSize b = 0 ->
  simd_clear_mem b m space = Done m' -> cleared 0 space m m'.
Proof.
  intros Hs Hlen Hbase Hrun.
  destruct (Z_le_dec (space / registerSize b) INT_MAX) as [Hle|Hgt].
  - destruct (simd_clear_mem_clears b m space Hs Hlen Hbase Hle) as (m1 & E & Hc).
    congruence.
  - rewrite simd_clear_mem_overflows in Hrun by (assumption || lia).
    discriminate.
Qed.

(** [calloc_simd] when the guard lets the request through. *)
Lemma calloc_simd_allocates (b : build) (items size total : Z) :
  negb (items =? 0) && (size >? SIZE_MAX / items) = false ->
  round_to_alignment (to_size_t (items * size)) (alignment b) = Done total ->
  calloc_simd alloc b items size =
  match alloc (alignment b) total with
  | None => ([CallAlignedAlloc (alignment b) total], Done None)
  | Some ptr =>
    ([CallAlignedAlloc (alignment b) total; CallClearMem total],
     m <- simd_clear_mem b ptr total ;; Done (Some m))
  end.
Proof.
  intros Hguard Hround. unfold calloc_simd.
  rewrite Hguard. cbv zeta. rewrite Hround. reflexivity.
Qed.

Lemma round_to_alignment_defined (b : build) (n : Z) :
  exists total, round_to_alignment n (alignment b) = Done total /\ is_size_t total.
Proof.
  unfold round_to_alignment.
  destruct (Z.eqb_spec (alignment b) 0) as [E|_].
  - pose proof (alignment_pos b). lia.
  - eexists. split; [reflexivity|apply to_size_t_range].
Qed.

(** Whenever [calloc_simd] returns a block, every byte of it is zero. *)
Lemma calloc_simd_success_zeroed (b : build) (items size : Z) (m : block) :
  allocator_contract alloc ->
  snd (calloc_simd alloc b items size) = Done (Some m) ->
  all_zero m.
Proof.
  intros Hc Hrun.
  destruct (negb (items =? 0) && (size >? SIZE_MAX / items)) eqn:Hguard.
  - unfold calloc_simd in Hrun. rewrite Hguard in Hrun. discriminate.
  - destruct (round_to_alignment_defined b (to_size_t (items * size)))
      as (total & Hround & Htotal).
    rewrite (calloc_simd_allocates b items size total Hguard Hround) in Hrun.
    destruct (alloc (alignment b) total) as [ptr|] eqn:Halloc; [|discriminate].
    destruct (Hc _ _ _ Halloc) as (Hlen & Hbase).
    simpl in Hrun.
    destruct (simd_clear_mem b ptr total) as [m'|] eqn:Hclear; [|discriminate].
    simpl in Hrun. injection Hrun as <-.
    apply simd_clear_mem_done in Hclear;
      [| assumption | lia | apply aligned_for_stores; assumption].
    destruct Hclear as (_ & Hl & Hz).
    intros off Hoff. rewrite Hz.
    destruct (Z.leb_spec 0 off), (Z.ltb_spec off total); simpl;
      try reflexivity; lia.
Qed.

(** A request that overflows nowhere, that the allocator grants and whose
    step count fits the counter returns a block with its bytes cleared. *)
Lemma calloc_simd_succeeds (b : build) (items size : Z) (ptr : block) :
  allocator_contract alloc ->
  is_size_t items -> is_size_t size ->
  items * size <= SIZE_MAX ->
  items * size + alignment b - 1 <= SIZE_MAX ->
  let total := (items * size + alignment b - 1) / alignment b * alignment b in
  alloc (alignment b) total = Some ptr ->
  total / registerSize b <= INT_MAX ->
  exists m,
    calloc_simd alloc b items size =
      ([CallAlignedAlloc (alignment b) total; CallClearMem total], Done (Some m)) /\
    cleared 0 total ptr m.
Proof.
  intros Hc Hi Hs Hprod Hsum total Halloc Hsteps.
  pose proof (alignment_pos b) as Ha.
  assert (Hp : is_size_t (items * size)) by (unfold is_size_t in *; nia).
  assert (Hfit : rounding_fits (items * size) (alignment b)).
  { repeat split; try apply alignment_is_size_t; unfold is_size_t in *; lia. }
  assert (Htotal : is_size_t total).
  { pose proof (Z.mul_div_le (items * size + alignment b - 1) (alignment b) Ha).
    pose proof (Z.div_pos (items * size + alignment b - 1) (alignment b)).
    unfold is_size_t in *. subst total. nia. }
  rewrite (calloc_simd_allocates b items size total);
    [| apply overflow_check_passes; assumption
     | rewrite to_size_t_small by assumption;
       apply round_to_alignment_exact; assumption].
  rewrite Halloc.
  destruct (Hc _ _ _ Halloc) as (Hlen & Hbase).
  destruct (simd_clear_mem_clears b ptr total) as (m & -> & Hclr);
    [assumption | lia | apply aligned_for_stores; assumption | assumption |].
  exists m. split; [reflexivity | exact Hclr].
Qed.

End Calloc.

Lemma generous_alloc_contract : allocator_contract generous_alloc.
Proof.
  intros a n blk H. unfold generous_alloc in H. injection H as <-.
  cbn [len base]. split; [reflexivity|].
  destruct (Z.eq_dec a 0) as [->|Ha]; [reflexivity|].
  exact (Z.mod_mul 4096 a Ha).
Qed.

Lemma exhausted_alloc_contract : allocator_contract exhausted_alloc.
Proof. intros a n blk H. discriminate H. Qed.

(** ** The claims about [calloc_simd] and [simd_clear_mem] *)

(** C1, at an input where the code departs from it.  On the SSE2 build the
    request for [2^31 + 1] items of 16 bytes passes the guard and is rounded
    to [2^35 + 16] bytes; the allocator grants it; clearing needs [2^31 + 1]
    chunk stores.  The [int] counter serves the chunks [0 .. INT_MAX], after
    which the bytes [0, 2^35) are zero and the 16 bytes of the last chunk
    still hold what the allocator left there; the next step is the increment
    of [INT_MAX], which is undefined, so no zero-filled block is returned
    (where the increment wraps, the comparison with the [size_t] bound ends
    the loop and the block is returned with its last chunk uncleared). *)
Theorem calloc_simd_last_chunk_uncleared :
  let ptr := mkBlock (4096 * 16) (2 ^ 35 + 16) (fun _ => 170) in
  generous_alloc 16 (2 ^ 35 + 16) = Some ptr /\
  calloc_simd generous_alloc SSE2 (2 ^ 31 + 1) 16 =
    ([CallAlignedAlloc 16 (2 ^ 35 + 16); CallClearMem (2 ^ 35 + 16)], Undefined) /\
  exists m1 m2,
    vector_loop SSE2 (2 ^ 31 + 1) 0 ptr 0 =
      vector_loop SSE2 (2 ^ 31 + 1) INT_MAX m1 INT_MAX /\
    vector_store SSE2 m1 INT_MAX = Done m2 /\
    vector_loop SSE2 (2 ^ 31 + 1) INT_MAX m1 INT_MAX = Undefined /\
    (forall x, 0 <= x < 2 ^ 35 -> contents m2 x = 0) /\
    (forall x, 2 ^ 35 <= x < 2 ^ 35 + 16 -> contents m2 x = 170).
Proof.
  intros ptr. split; [reflexivity|]. split.
  - rewrite (calloc_simd_allocates generous_alloc SSE2 (2 ^ 31 + 1) 16 (2 ^ 35 + 16));
      [| vm_compute; reflexivity | vm_compute; reflexivity].
    unfold generous_alloc. cbv beta iota.
    rewrite simd_clear_mem_overflows.
    + reflexivity.
    + unfold is_size_t, SIZE_MAX. lia.
    + vm_compute. reflexivity.
  - destruct (vector_loop_stops_at_int_max SSE2 (2 ^ 31 + 1) ptr)
      as (m1 & m2 & Hrun & Hstore & Hundef & _ & _ & Hz).
    + unfold INT_MAX. lia.
    + vm_compute. discriminate.
    + reflexivity.
    + change ((INT_MAX + 1) * registerSize SSE2) with (2 ^ 35) in Hz.
      exists m1, m2.
      split; [exact Hrun|]. split; [exact Hstore|]. split; [exact Hundef|].
      split.
      * intros x Hx. rewrite Hz.
        destruct (Z.leb_spec 0 x), (Z.ltb_spec x (2 ^ 35)); simpl;
          try reflexivity; lia.
      * intros x Hx. rewrite Hz.
        destruct (Z.leb_spec 0 x), (Z.ltb_spec x (2 ^ 35)); simpl;
          try reflexivity; lia.
Qed.

(** C2.  For every pair (items, size) that overflows neither in the product
    nor in the rounding addition and for which [calloc_simd] returns a block,
    the block has the length [round_to_alignment (items*size) alignment],
    which is at least [items*size] and a multiple of the build's alignment,
    and it was requested from [aligned_alloc] with that alignment and that
    length. *)
Theorem calloc_simd_block_length
    (alloc : Z -> Z -> option block) (b : build) (items size : Z) (m : block) :
  allocator_contract alloc ->
  is_size_t items -> is_size_t size ->
  items * size <= SIZE_MAX ->
  items * size + alignment b - 1 <= SIZE_MAX ->
  snd (calloc_simd alloc b items size) = Done (Some m) ->
  exists total,
    round_to_alignment (items * size) (alignment b) = Done total /\
    len m = total /\
    items * size <= total /\
    total mod alignment b = 0 /\
    fst (calloc_simd alloc b items size) =
      [CallAlignedAlloc (alignment b) total; CallClearMem total].
Proof.
  intros Hc Hi Hs Hprod Hsum Hrun.
  pose proof (alignment_pos b) as Ha.
  assert (Hp : is_size_t (items * size)) by (unfold is_size_t in *; nia).
  assert (Hfit : rounding_fits (items * size) (alignment b)).
  { repeat split; try apply alignment_is_size_t; unfold is_size_t in *; lia. }
  pose proof (round_to_alignment_exact _ _ Ha Hfit) as Hround.
  destruct (round_up_bounds (items * size) (alignment b) Ha (proj1 Hp))
    as (Hge & _ & Hmul).
  set (total := (items * size + alignment b - 1) / alignment b * alignment b) in *.
  exists total.
  rewrite (calloc_simd_allocates alloc b items size total) in Hrun |- *;
    [| apply overflow_check_passes; assumption
     | rewrite to_size_t_small; assumption
     | apply overflow_check_passes; assumption
     | rewrite to_size_t_small; assumption].
  destruct (alloc (alignment b) total) as [ptr|] eqn:Halloc; [|discriminate].
  destruct (Hc _ _ _ Halloc) as (Hlen & Hbase).
  cbn [fst snd] in *.
  destruct (simd_clear_mem b ptr total) as [m'|] eqn:Hclear; [|discriminate].
  simpl in Hrun. injection Hrun as <-.
  assert (Htotal : is_size_t total).
  { unfold is_size_t in *. pose proof (Z.mul_div_le (items * size + alignment b - 1)
      (alignment b) Ha). fold total in H. lia. }
  apply simd_clear_mem_done in Hclear;
    [| assumption | lia | apply aligned_for_stores; assumption].
  destruct Hclear as (_ & Hl & _).
  repeat split; try assumption; congruence.
Qed.

Lemma calloc_simd_block_length_witness :
  exists m total,
    snd (calloc_simd generous_alloc SSE2 3 5) = Done (Some m) /\
    round_to_alignment (3 * 5) (alignment SSE2) = Done total /\
    len m = total /\ 3 * 5 <= total /\ total mod alignment SSE2 = 0 /\
    fst (calloc_simd generous_alloc SSE2 3 5) =
      [CallAlignedAlloc (alignment SSE2) total; CallClearMem total].
Proof.
  assert (E : exists m, snd (calloc_simd generous_alloc SSE2 3 5) = Done (Some m))
    by (vm_compute; eexists; reflexivity).
  destruct E as [m E]. exists m.
  destruct (calloc_simd_block_length generous_alloc SSE2 3 5 m) as (total & H).
  - exact generous_alloc_contract.
  - unfold is_size_t, SIZE_MAX. lia.
  - unfold is_size_t, SIZE_MAX. lia.
  - unfold SIZE_MAX. lia.
  - unfold SIZE_MAX. simpl. lia.
  - exact E.
  - exists total. split; [exact E | exact H].
Defined.

(** C3.  For every pair (items, size) with [items != 0] and
    [size > SIZE_MAX / items], [calloc_simd] returns [NULL], and its trace is
    empty: no request reaches the allocator. *)
Theorem calloc_simd_overflow
    (alloc : Z -> Z -> option block) (b : build) (items size : Z) :
  items <> 0 -> size > SIZE_MAX / items ->
  calloc_simd alloc b items size = ([], Done None).
Proof.
  intros Hnz Hgt. unfold calloc_simd.
  rewrite overflow_check_fails by assumption. reflexivity.
Qed.

Lemma calloc_simd_overflow_witness :
  calloc_simd generous_alloc AVX2 2 SIZE_MAX = ([], Done None).
Proof.
  apply (calloc_simd_overflow generous_alloc AVX2 2 SIZE_MAX).
  - lia.
  - vm_compute. reflexivity.
Defined.

(** When the rounding addition wraps, the request passed on to the allocator
    has length zero, for every build. *)
Lemma calloc_simd_wrapped_request
    (alloc : Z -> Z -> option block) (b : build) (items size : Z) :
  is_size_t items -> is_size_t size -> items * size <= SIZE_MAX ->
  SIZE_MAX < items * size + alignment b - 1 ->
  calloc_simd alloc b items size =
  match alloc (alignment b) 0 with
  | None => ([CallAlignedAlloc (alignment b) 0], Done None)
  | Some ptr =>
    ([CallAlignedAlloc (alignment b) 0; CallClearMem 0],
     m <- simd_clear_mem b ptr 0 ;; Done (Some m))
  end.
Proof.
  intros Hi Hs Hprod Hwrap.
  assert (Hp : is_size_t (items * size)) by (unfold is_size_t in *; nia).
  apply calloc_simd_allocates.
  - apply overflow_check_passes; assumption.
  - rewrite to_size_t_small by assumption.
    apply round_to_alignment_wrapped;
      auto using alignment_pos, alignment_is_size_t.
Qed.

(** C4, at an input where the code departs from it.  [items = 1],
    [size = SIZE_MAX] passes the guard ([SIZE_MAX / 1 = SIZE_MAX]); the
    rounding addition [SIZE_MAX + 16 - 1] wraps; [calloc_simd] asks the
    allocator for 0 bytes and returns the block it gets as a success. *)
Theorem calloc_simd_rounding_wrap :
  exists m,
    calloc_simd generous_alloc SSE2 1 SIZE_MAX =
      ([CallAlignedAlloc 16 0; CallClearMem 0], Done (Some m)) /\
    len m = 0.
Proof.
  eexists. split.
  - vm_compute. reflexivity.
  - reflexivity.
Qed.

(** C5 as stated fails: without vectors the alignment is 16 and the chunk is
    the 8 bytes of a double. *)
Lemma chunk_width_differs_without_vectors :
  ~ (forall b, registerSize b = alignment b).
Proof. intros H. specialize (H NoVector). discriminate H. Qed.

(** C5, amended.  In every build the store of step [i] of the chunked loop
    writes [registerSize] zero bytes at byte offset [i * registerSize]; this
    width equals the alignment chosen by [calloc_simd] in the three vector
    builds, and is 8 bytes, half the alignment of 16, in the build without
    vectors; in every build it divides the alignment. *)
Theorem chunk_width_per_build (b : build) :
  (forall m i, 0 <= i <= INT_MAX ->
     vector_store b m i =
     store_zero (registerSize b) (registerSize b) m (i * registerSize b)) /\
  registerSize b = match b with NoVector => 8 | _ => alignment b end /\
  alignment b = match b with AVX512F => 64 | AVX2 => 32 | _ => 16 end /\
  alignment b mod registerSize b = 0.
Proof.
  split; [intros m i Hi; apply vector_store_chunk; exact Hi|].
  destruct b; repeat split.
Qed.

Lemma chunk_width_per_build_witness :
  vector_store NoVector (mkBlock 4096 16 (fun _ => 170)) 1 =
  store_zero 8 8 (mkBlock 4096 16 (fun _ => 170)) 8.
Proof.
  apply (proj1 (chunk_width_per_build NoVector) (mkBlock 4096 16 (fun _ => 170)) 1).
  unfold INT_MAX. lia.
Defined.

(** C6.  If [aligned_alloc] returns [NULL] for the request that [calloc_simd]
    makes, [calloc_simd] returns [NULL] (never a block, of any length), and
    its trace holds no call of [simd_clear_mem]. *)
Theorem calloc_simd_allocation_failure
    (alloc : Z -> Z -> option block) (b : build) (items size total : Z) :
  round_to_alignment (to_size_t (items * size)) (alignment b) = Done total ->
  alloc (alignment b) total = None ->
  snd (calloc_simd alloc b items size) = Done None /\
  forall space, ~ In (CallClearMem space) (fst (calloc_simd alloc b items size)).
Proof.
  intros Hround Hnull.
  destruct (negb (items =? 0) && (size >? SIZE_MAX / items)) eqn:Hguard.
  - unfold calloc_simd. rewrite Hguard. simpl. auto.
  - rewrite (calloc_simd_allocates alloc b items size total Hguard Hround), Hnull.
    simpl. split; [reflexivity|].
    intros space [H|[]]. discriminate H.
Qed.

Lemma calloc_simd_allocation_failure_witness :
  snd (calloc_simd exhausted_alloc SSE2 3 5) = Done None /\
  forall space, ~ In (CallClearMem space) (fst (calloc_simd exhausted_alloc SSE2 3 5)).
Proof.
  apply (calloc_simd_allocation_failure exhausted_alloc SSE2 3 5 16).
  - vm_compute. reflexivity.
  - reflexivity.
Defined.

(** C10.  The chunked loop counts with an [int] against the [size_t] step
    count [space / registerSize].  For every [space] whose step count is at
    most [INT_MAX] the loop ends after exactly that many iterations and
    [simd_clear_mem] completes with the bytes [0, space) cleared; for a larger
    step count the loop, and with it [simd_clear_mem], is undefined, so the
    bound is a precondition of the zero-fill. *)
Theorem vector_loop_iterations (b : build) (m : block) (space : Z) :
  is_size_t space -> space <= len m -> base m mod registerSize b = 0 ->
  (space / registerSize b <= INT_MAX ->
     (exists m1, vector_loop b (space / registerSize b) 0 m 0
                 = Done (m1, space / registerSize b)) /\
     (exists m', simd_clear_mem b m space = Done m' /\ cleared 0 space m m')) /\
  (INT_MAX < space / registerSize b ->
     vector_loop b (space / registerSize b) 0 m 0 = Undefined /\
     simd_clear_mem b m space = Undefined).
Proof.
  intros Hs Hlen Hbase.
  destruct (steps_bounds b space Hs) as (Hq & Hqr).
  split; intros Hsteps.
  - split.
    + destruct (vector_loop_clears b (space / registerSize b) Hsteps
                  (Z.to_nat (space / registerSize b)) 0 m 0)
        as (m1 & E & _); try lia.
      exists m1. rewrite E. f_equal. f_equal. lia.
    + apply simd_clear_mem_clears; assumption.
  - split.
    + apply (vector_loop_overflows b _ Hsteps (Z.to_nat INT_MAX));
        unfold INT_MAX; lia.
    + apply simd_clear_mem_overflows; assumption.
Qed.

Lemma vector_loop_iterations_witness :
  (exists m1, vector_loop AVX2 (100 / 32) 0 (mkBlock 4096 100 (fun _ => 170)) 0
              = Done (m1, 100 / 32)) /\
  simd_clear_mem NoVector (mkBlock 4096 (2 ^ 34) (fun _ => 170)) (2 ^ 34) = Undefined.
Proof.
  split.
  - apply (vector_loop_iterations AVX2 (mkBlock 4096 100 (fun _ => 170)) 100).
    + unfold is_size_t, SIZE_MAX. lia.
    + simpl. lia.
    + reflexivity.
    + vm_compute. discriminate.
  - apply (vector_loop_iterations NoVector (mkBlock 4096 (2 ^ 34) (fun _ => 170)) (2 ^ 34)).
    + unfold is_size_t, SIZE_MAX. lia.
    + simpl. lia.
    + reflexivity.
    + vm_compute. reflexivity.
Defined.

(** ** The scenarios of the specification, run on the model *)

Example scenario_doubles :
  exists m,
    calloc_simd generous_alloc AVX2 1000 8 =
      ([CallAlignedAlloc 32 8000; CallClearMem 8000], Done (Some m)) /\
    len m = 8000 /\ base m mod 32 = 0 /\ all_zero m.
Proof.
  destruct (calloc_simd_succeeds generous_alloc AVX2 1000 8
              (mkBlock (4096 * 32) 8000 (fun _ => 170)))
    as (m & E & Hb & Hl & Hz);
    try (unfold is_size_t, SIZE_MAX; simpl; lia).
  - exact generous_alloc_contract.
  - reflexivity.
  - vm_compute. discriminate.
  - exists m. split; [exact E|].
    cbn [len base] in *. split; [exact Hl|]. split; [rewrite Hb; reflexivity|].
    intros off Hoff. rewrite Hl in Hoff. rewrite Hz.
    change ((1000 * 8 + alignment AVX2 - 1) / alignment AVX2 * alignment AVX2)
      with 8000.
    destruct (Z.leb_spec 0 off), (Z.ltb_spec off 8000); simpl;
      try reflexivity; lia.
Qed.

Example scenario_three_by_five :
  exists m,
    calloc_simd generous_alloc SSE2 3 5 =
      ([CallAlignedAlloc 16 16; CallClearMem 16], Done (Some m)) /\
    vector_loop SSE2 (16 / 16) 0 (mkBlock 65536 16 (fun _ => 170)) 0 = Done (m, 1) /\
    map (contents m) [0; 14; 15; 16] = [0; 0; 0; 170].
Proof.
  eexists. split; [vm_compute; reflexivity|].
  split; [vm_compute; reflexivity|reflexivity].
Qed.

Example scenario_no_items :
  round_to_alignment (to_size_t (0 * 8)) (alignment AVX512F) = Done 0 /\
  fst (calloc_simd exhausted_alloc AVX512F 0 8) = [CallAlignedAlloc 64 0].
Proof. split; reflexivity. Qed.

(** * Further properties of the three functions *)

(** ** [round_to_alignment] beyond the non-overflowing range *)

Lemma round_to_alignment_wrapping_multiple (size a : Z) :
  0 < a ->
  exists r, round_to_alignment size a = Done r /\ r mod a = 0 /\ is_size_t r.
Proof.
  intros Ha. unfold round_to_alignment.
  destruct (Z.eqb_spec a 0) as [->|_]; [lia|].
  cbv zeta.
  set (sum := to_size_t (to_size_t (size + a) - 1)).
  pose proof (to_size_t_range (to_size_t (size + a) - 1)) as Hsum.
  fold sum in Hsum. unfold is_size_t in Hsum.
  pose proof (Z.div_pos sum a ltac:(lia) Ha) as Hq.
  pose proof (Z.mul_div_le sum a Ha) as Hle.
  assert (Hqs : sum / a <= sum) by (apply Z.div_le_upper_bound; nia).
  rewrite (to_size_t_small (sum / a)) by (unfold is_size_t; lia).
  rewrite to_size_t_small by (unfold is_size_t; nia).
  eexists. split; [reflexivity|]. split.
  - apply Z.mod_mul. lia.
  - unfold is_size_t. nia.
Qed.

(** For every size and every positive alignment, wrapped or not, the value
    returned is a multiple of the alignment and fits the word: the quotient
    is taken of the wrapped sum, and the product cannot exceed that sum. *)
Theorem round_to_alignment_result_multiple (size a : Z) :
  0 < a ->
  exists r, round_to_alignment size a = Done r /\ r mod a = 0 /\ is_size_t r.
Proof. apply round_to_alignment_wrapping_multiple. Qed.

Lemma round_to_alignment_result_multiple_witness :
  exists r, round_to_alignment SIZE_MAX 64 = Done r /\ r mod 64 = 0 /\ is_size_t r.
Proof.
  apply (round_to_alignment_result_multiple SIZE_MAX 64). lia.
Defined.

(** On non-overflowing inputs the value returned is the least multiple of the
    alignment that is not below [size]. *)
Theorem round_to_alignment_least (size a : Z) :
  0 < a -> rounding_fits size a ->
  exists r, round_to_alignment size a = Done r /\
            size <= r /\ r mod a = 0 /\
            forall k, size <= k -> k mod a = 0 -> r <= k.
Proof.
  intros Ha Hfit.
  exists ((size + a - 1) / a * a).
  split; [apply round_to_alignment_exact; assumption|].
  destruct Hfit as ((Hs & _) & _).
  destruct (round_up_bounds size a Ha Hs) as (Hge & Hgap & Hmul).
  repeat split; try assumption.
  intros k Hk Hkm.
  apply Z.mod_divide in Hkm; [|lia]. destruct Hkm as [j ->].
  assert (Hlt : (size + a - 1) / a < j + 1)
    by (apply Z.div_lt_upper_bound; nia).
  apply Z.mul_le_mono_nonneg_r; lia.
Qed.

Lemma round_to_alignment_least_witness :
  exists r, round_to_alignment 33 32 = Done r /\
            33 <= r /\ r mod 32 = 0 /\
            forall k, 33 <= k -> k mod 32 = 0 -> r <= k.
Proof.
  apply (round_to_alignment_least 33 32).
  - lia.
  - unfold rounding_fits, is_size_t, SIZE_MAX. lia.
Defined.

(** On non-overflowing inputs the rounding is monotone in the size. *)
Theorem round_to_alignment_monotone (size1 size2 a : Z) :
  0 < a -> rounding_fits size1 a -> rounding_fits size2 a ->
  size1 <= size2 ->
  exists r1 r2, round_to_alignment size1 a = Done r1 /\
                round_to_alignment size2 a = Done r2 /\ r1 <= r2.
Proof.
  intros Ha H1 H2 Hle.
  exists ((size1 + a - 1) / a * a), ((size2 + a - 1) / a * a).
  repeat split; try (apply round_to_alignment_exact; assumption).
  apply Z.mul_le_mono_nonneg_r; [lia|].
  apply Z.div_le_mono; lia.
Qed.

Lemma round_to_alignment_monotone_witness :
  exists r1 r2, round_to_alignment 16 16 = Done r1 /\
                round_to_alignment 17 16 = Done r2 /\ r1 <= r2.
Proof.
  apply (round_to_alignment_monotone 16 17 16);
    unfold rounding_fits, is_size_t, SIZE_MAX; lia.
Defined.

(** When [size + alignment - 1] exceeds [SIZE_MAX] the sum wraps to a value
    below the alignment and the function returns 0, for every alignment. *)
Theorem round_to_alignment_overflow_gives_zero (size a : Z) :
  0 < a -> is_size_t a -> is_size_t size ->
  SIZE_MAX < size + a - 1 ->
  round_to_alignment size a = Done 0.
Proof. intros. apply round_to_alignment_wrapped; assumption. Qed.

Lemma round_to_alignment_overflow_gives_zero_witness :
  round_to_alignment (SIZE_MAX - 14) 16 = Done 0.
Proof.
  apply (round_to_alignment_overflow_gives_zero (SIZE_MAX - 14) 16);
    unfold is_size_t, SIZE_MAX; lia.
Defined.

(** ** When [simd_clear_mem] completes *)

Lemma store_zero_inv (al w : Z) (m m' : block) (off : Z) :
  store_zero al w m off = Done m' ->
  0 <= off /\ off + w <= len m /\ (base m + off) mod al = 0 /\
  base m' = base m /\ len m' = len m.
Proof.
  unfold store_zero.
  destruct (Z.leb_spec 0 off); [|discriminate].
  destruct (Z.leb_spec (off + w) (len m)); [|discriminate].
  destruct (Z.eqb_spec ((base m + off) mod al) 0); [|discriminate].
  simpl. intros Hd. injection Hd as <-. simpl. auto.
Qed.

(** A chunked loop that returns has kept the block's address and length, and
    if it ran at all, its last chunk was inside the block and its stores were
    aligned. *)
Lemma vector_loop_done_inv (b : build) (steps : Z) :
  steps <= INT_MAX ->
  forall (k : nat) (i : Z) (m : block) (n : Z) (r : block * Z),
    Z.of_nat k = steps - i -> 0 <= i ->
    vector_loop b steps i m n = Done r ->
    base (fst r) = base m /\ len (fst r) = len m /\
    (i < steps ->
     steps * registerSize b <= len m /\ base m mod registerSize b = 0).
Proof.
  intros Hsteps. pose proof (registerSize_pos b) as Hrs.
  induction k as [|k IH]; intros i m n r Hk Hi;
    rewrite vector_loop_step, (int_as_size_t i) by lia.
  - destruct (Z_lt_dec i steps); [lia|].
    intros H. injection H as <-. simpl. repeat split; lia.
  - destruct (Z_lt_dec i steps); [|lia].
    rewrite vector_store_chunk by lia.
    destruct (store_zero (registerSize b) (registerSize b) m (i * registerSize b))
      as [m1|] eqn:Hstore; [|discriminate].
    apply store_zero_inv in Hstore.
    destruct Hstore as (Hoff & Hend & Hal & Hb1 & Hl1).
    rewrite Z.mod_add in Hal by lia.
    destruct (Z_lt_dec i INT_MAX); [|lia].
    intros Hrun. apply IH in Hrun; [|lia|lia].
    destruct Hrun as (Hb & Hl & Hrest).
    repeat split; try congruence.
    destruct (Z_lt_dec (i + 1) steps) as [Hlt|Hge].
    + destruct (Hrest Hlt) as (Hin & _). lia.
    + replace steps with (i + 1) by lia. lia.
Qed.

Lemma tail_loop_done_inv (space : Z) :
  forall (k : nat) (i : Z) (m m' : block),
    Z.of_nat k = space - i -> 0 <= i ->
    tail_loop space i m = Done m' ->
    base m' = base m /\ len m' = len m /\ (i < space -> space <= len m).
Proof.
  induction k as [|k IH]; intros i m m' Hk Hi; rewrite tail_loop_step.
  - destruct (Z_lt_dec i space); [lia|].
    intros H. injection H as <-. repeat split; lia.
  - destruct (Z_lt_dec i space); [|lia].
    destruct (store_zero 1 1 m i) as [m1|] eqn:Hstore; [|discriminate].
    apply store_zero_inv in Hstore.
    destruct Hstore as (Hoff & Hend & _ & Hb1 & Hl1).
    intros Hrun. apply IH in Hrun; [|lia|lia].
    destruct Hrun as (Hb & Hl & Hrest).
    repeat split; try congruence.
    destruct (Z_lt_dec (i + 1) space) as [Hlt|Hge].
    + specialize (Hrest Hlt). lia.
    + lia.
Qed.

(** The alignment of the block matters only if at least one chunk is
    stored. *)
Lemma simd_clear_mem_clears_weak (b : build) (m : block) (space : Z) :
  is_size_t space -> space <= len m ->
  (registerSize b <= space -> base m mod registerSize b = 0) ->
  space / registerSize b <= INT_MAX ->
  exists m', simd_clear_mem b m space = Done m' /\ cleared 0 space m m'.
Proof.
  intros Hs Hlen Hbase Hsteps. pose proof (registerSize_pos b) as Hrs.
  destruct (Z_le_dec (registerSize b) space) as [Hbig|Hsmall].
  - apply simd_clear_mem_clears; auto.
  - unfold simd_clear_mem. cbv zeta.
    rewrite Z.div_small by (unfold is_size_t in *; lia).
    change (to_size_t 0) with 0.
    rewrite vector_loop_step. change (to_size_t 0) with 0.
    destruct (Z_lt_dec 0 0); [lia|].
    simpl bind. simpl fst. change (to_size_t (0 * registerSize b)) with 0.
    apply (tail_loop_clears space (Z.to_nat space)); unfold is_size_t in *; lia.
Qed.

Lemma simd_clear_mem_done_clearable (b : build) (m m' : block) (space : Z) :
  is_size_t space -> 0 <= len m ->
  simd_clear_mem b m space = Done m' -> clearable b m space.
Proof.
  intros Hs Hlen Hrun. pose proof (registerSize_pos b) as Hrs.
  destruct (steps_bounds b space Hs) as (Hq & Hqr).
  destruct (Z_le_dec (space / registerSize b) INT_MAX) as [Hsteps|Hover];
    [| rewrite simd_clear_mem_overflows in Hrun by (assumption || lia);
       discriminate].
  unfold simd_clear_mem in Hrun. cbv zeta in Hrun.
  rewrite (to_size_t_small (space / registerSize b)) in Hrun
    by (unfold is_size_t in *; lia).
  rewrite (to_size_t_small (space / registerSize b * registerSize b)) in Hrun
    by (unfold is_size_t in *; lia).
  destruct (vector_loop b (space / registerSize b) 0 m 0) as [r|] eqn:Hvec;
    [|discriminate].
  simpl in Hrun.
  apply (vector_loop_done_inv b _ Hsteps (Z.to_nat (space / registerSize b)))
    in Hvec; [|lia|lia].
  destruct Hvec as (Hb & Hl & Hchunks).
  apply (tail_loop_done_inv space
           (Z.to_nat (space - space / registerSize b * registerSize b)))
    in Hrun; [|lia|lia].
  destruct Hrun as (_ & _ & Htail).
  assert (Hone : registerSize b <= space -> 0 < space / registerSize b).
  { intros Hbig. apply Z.div_str_pos. lia. }
  repeat split.
  - destruct (Z_lt_dec (space / registerSize b * registerSize b) space) as [Hlt|Hge].
    + specialize (Htail Hlt). lia.
    + destruct (Z_lt_dec 0 (space / registerSize b)) as [Hpos|Hzero].
      * destruct (Hchunks Hpos). lia.
      * unfold is_size_t in *. nia.
  - intros Hbig. destruct (Hchunks (Hone Hbig)). assumption.
  - assumption.
Qed.

(** [simd_clear_mem] completes exactly on the blocks that hold [space] bytes,
    are aligned for the chunk stores whenever at least one chunk is stored,
    and need no more chunks than the [int] counter can count. *)
Theorem simd_clear_mem_defined_iff (b : build) (m : block) (space : Z) :
  is_size_t space -> 0 <= len m ->
  ((exists m', simd_clear_mem b m space = Done m') <-> clearable b m space).
Proof.
  intros Hs Hlen. split.
  - intros (m' & Hrun). apply (simd_clear_mem_done_clearable b m m'); assumption.
  - intros (Hin & Hal & Hsteps).
    destruct (simd_clear_mem_clears_weak b m space Hs Hin Hal Hsteps) as (m' & E & _).
    exists m'. exact E.
Qed.

Lemma simd_clear_mem_defined_iff_witness :
  (exists m', simd_clear_mem SSE2 (mkBlock 4096 48 (fun _ => 170)) 40 = Done m') <->
  clearable SSE2 (mkBlock 4096 48 (fun _ => 170)) 40.
Proof.
  apply (simd_clear_mem_defined_iff SSE2 (mkBlock 4096 48 (fun _ => 170)) 40).
  - unfold is_size_t, SIZE_MAX. lia.
  - simpl. lia.
Defined.

(** A request shorter than one chunk is served by the byte loop alone, so it
    is cleared whatever the alignment of the block. *)
Theorem simd_clear_mem_short_any_alignment (b : build) (m : block) (space : Z) :
  0 <= space < registerSize b -> space <= len m ->
  exists m', simd_clear_mem b m space = Done m' /\ cleared 0 space m m'.
Proof.
  intros Hshort Hlen.
  apply simd_clear_mem_clears_weak.
  - destruct b; unfold is_size_t, SIZE_MAX; simpl in *; lia.
  - assumption.
  - lia.
  - rewrite Z.div_small by lia. unfold INT_MAX. lia.
Qed.

Lemma simd_clear_mem_short_any_alignment_witness :
  exists m', simd_clear_mem AVX512F (mkBlock 4099 40 (fun _ => 170)) 40 = Done m' /\
             cleared 0 40 (mkBlock 4099 40 (fun _ => 170)) m'.
Proof.
  apply (simd_clear_mem_short_any_alignment AVX512F (mkBlock 4099 40 (fun _ => 170)) 40).
  - simpl. lia.
  - simpl. lia.
Defined.

(** With at least one chunk to store, a block whose address is not a multiple
    of the chunk width makes the first store, and so the call, undefined. *)
Theorem simd_clear_mem_misaligned (b : build) (m : block) (space : Z) :
  is_size_t space -> 0 <= len m ->
  registerSize b <= space -> base m mod registerSize b <> 0 ->
  simd_clear_mem b m space = Undefined.
Proof.
  intros Hs Hlen Hbig Hmis.
  destruct (simd_clear_mem b m space) as [m'|] eqn:Hrun; [|reflexivity].
  destruct (simd_clear_mem_done_clearable b m m' space Hs Hlen Hrun) as (_ & Hal & _).
  elim Hmis. apply Hal. exact Hbig.
Qed.

Lemma simd_clear_mem_misaligned_witness :
  simd_clear_mem AVX2 (mkBlock 4112 64 (fun _ => 170)) 64 = Undefined.
Proof.
  apply (simd_clear_mem_misaligned AVX2 (mkBlock 4112 64 (fun _ => 170)) 64).
  - unfold is_size_t, SIZE_MAX. lia.
  - simpl. lia.
  - simpl. lia.
  - vm_compute. discriminate.
Defined.

(** Asked to clear more bytes than the block holds, [simd_clear_mem] has
    undefined behaviour: on its way it meets a store outside the block, a
    misaligned store, or the overflow of the [int] counter. *)
Theorem simd_clear_mem_beyond_block (b : build) (m : block) (space : Z) :
  is_size_t space -> 0 <= len m -> len m < space ->
  simd_clear_mem b m space = Undefined.
Proof.
  intros Hs Hlen Hout.
  destruct (simd_clear_mem b m space) as [m'|] eqn:Hrun; [|reflexivity].
  destruct (simd_clear_mem_done_clearable b m m' space Hs Hlen Hrun) as (Hin & _).
  lia.
Qed.

Lemma simd_clear_mem_beyond_block_witness :
  simd_clear_mem NoVector (mkBlock 4096 16 (fun _ => 170)) 17 = Undefined.
Proof.
  apply (simd_clear_mem_beyond_block NoVector (mkBlock 4096 16 (fun _ => 170)) 17).
  - unfold is_size_t, SIZE_MAX. lia.
  - simpl. lia.
  - simpl. lia.
Defined.

(** Clearing a block that [simd_clear_mem] has just cleared completes as well
    and changes no byte. *)
Theorem simd_clear_mem_twice (b : build) (m m1 : block) (space : Z) :
  is_size_t space -> 0 <= len m ->
  simd_clear_mem b m space = Done m1 ->
  exists m2, simd_clear_mem b m1 space = Done m2 /\
             base m2 = base m1 /\ len m2 = len m1 /\
             forall x, contents m2 x = contents m1 x.
Proof.
  intros Hs Hlen Hrun.
  destruct (simd_clear_mem_done_clearable b m m1 space Hs Hlen Hrun)
    as (Hin & Hal & Hsteps).
  destruct (simd_clear_mem_clears_weak b m space Hs Hin Hal Hsteps)
    as (m1' & E & Hb1 & Hl1 & Hc1).
  assert (m1' = m1) by congruence. subst m1'.
  destruct (simd_clear_mem_clears_weak b m1 space Hs) as (m2 & E2 & Hb2 & Hl2 & Hc2).
  - lia.
  - rewrite Hb1. exact Hal.
  - exact Hsteps.
  - exists m2. repeat split; try assumption.
    intros x. rewrite Hc2, Hc1.
    destruct ((0 <=? x) && (x <? space)); reflexivity.
Qed.

Lemma simd_clear_mem_twice_witness :
  exists m1 m2,
    simd_clear_mem SSE2 (mkBlock 4096 32 (fun _ => 170)) 20 = Done m1 /\
    simd_clear_mem SSE2 m1 20 = Done m2 /\
    base m2 = base m1 /\ len m2 = len m1 /\
    forall x, contents m2 x = contents m1 x.
Proof.
  assert (E : exists m1,
             simd_clear_mem SSE2 (mkBlock 4096 32 (fun _ => 170)) 20 = Done m1)
    by (vm_compute; eexists; reflexivity).
  destruct E as [m1 E]. exists m1.
  destruct (simd_clear_mem_twice SSE2 (mkBlock 4096 32 (fun _ => 170)) m1 20)
    as (m2 & H).
  - unfold is_size_t, SIZE_MAX. lia.
  - simpl. lia.
  - exact E.
  - exists m2. split; [exact E | exact H].
Defined.

(** When [space] is a multiple of the chunk width the byte loop starts at
    [space] and stores nothing: the chunked loop alone clears the block. *)
Theorem simd_clear_mem_no_tail (b : build) (m : block) (space : Z) :
  is_size_t space -> space mod registerSize b = 0 ->
  simd_clear_mem b m space =
  (r <- vector_loop b (space / registerSize b) 0 m 0 ;; Done (fst r)).
Proof.
  intros Hs Hmul. pose proof (registerSize_pos b) as Hrs.
  destruct (steps_bounds b space Hs) as (Hq & Hqr).
  unfold simd_clear_mem. cbv zeta.
  rewrite (to_size_t_small (space / registerSize b))
    by (unfold is_size_t in *; lia).
  rewrite (to_size_t_small (space / registerSize b * registerSize b))
    by (unfold is_size_t in *; lia).
  assert (Hstart : space / registerSize b * registerSize b = space).
  { pose proof (Z.div_mod space (registerSize b) ltac:(lia)). lia. }
  rewrite Hstart.
  destruct (vector_loop b (space / registerSize b) 0 m 0) as [r|]; [|reflexivity].
  simpl. rewrite tail_loop_step.
  destruct (Z_lt_dec space space); [lia|reflexivity].
Qed.

Lemma simd_clear_mem_no_tail_witness :
  simd_clear_mem NoVector (mkBlock 4096 16 (fun _ => 170)) 16 =
  (r <- vector_loop NoVector (16 / 8) 0 (mkBlock 4096 16 (fun _ => 170)) 0 ;;
   Done (fst r)).
Proof.
  apply (simd_clear_mem_no_tail NoVector (mkBlock 4096 16 (fun _ => 170)) 16).
  - unfold is_size_t, SIZE_MAX. lia.
  - reflexivity.
Defined.

(** ** [calloc_simd]: the guard, empty requests, and what is returned *)

Section CallocFurther.

Variable alloc : Z -> Z -> option block.

(** No chunk and no byte is stored for an empty request. *)
Lemma simd_clear_mem_nothing (b : build) (m : block) :
  simd_clear_mem b m 0 = Done m.
Proof.
  unfold simd_clear_mem. cbv zeta.
  rewrite Z.div_0_l by (pose proof (registerSize_pos b); lia).
  change (to_size_t 0) with 0.
  rewrite vector_loop_step. change (to_size_t 0) with 0.
  destruct (Z_lt_dec 0 0); [lia|].
  simpl. change (to_size_t 0) with 0.
  rewrite tail_loop_step. destruct (Z_lt_dec 0 0); [lia|reflexivity].
Qed.

(** The guard [items != 0 && size > SIZE_MAX / items] rejects exactly the
    pairs whose product does not fit the word: [calloc_simd] returns [NULL]
    without calling the allocator if and only if [items * size > SIZE_MAX]. *)
Theorem calloc_simd_rejects_iff_overflow (b : build) (items size : Z) :
  is_size_t items -> is_size_t size ->
  (SIZE_MAX < items * size <->
   calloc_simd alloc b items size = ([], Done None)).
Proof.
  intros Hi Hs. split.
  - intros Hover. unfold calloc_simd.
    rewrite overflow_check_fails; [reflexivity| |].
    + unfold is_size_t, SIZE_MAX in *. nia.
    + assert (0 < items) by (unfold is_size_t, SIZE_MAX in *; nia).
      apply Z.lt_gt. apply Z.div_lt_upper_bound; lia.
  - intros Hnull.
    destruct (Z_lt_dec SIZE_MAX (items * size)) as [|Hfits]; [assumption|].
    destruct (round_to_alignment_defined b (to_size_t (items * size)))
      as (total & Hround & _).
    rewrite (calloc_simd_allocates alloc b items size total) in Hnull;
      [| apply overflow_check_passes; (assumption || lia) | exact Hround].
    destruct (alloc (alignment b) total); discriminate Hnull.
Qed.

(** A request for no items, or for items of size zero, is not answered by
    [calloc_simd] itself: it asks the allocator for 0 bytes and returns
    whatever the allocator returns, [NULL] or the untouched block. *)
Theorem calloc_simd_empty_request (b : build) (items size : Z) :
  is_size_t items -> is_size_t size -> items = 0 \/ size = 0 ->
  calloc_simd alloc b items size =
  match alloc (alignment b) 0 with
  | None => ([CallAlignedAlloc (alignment b) 0], Done None)
  | Some ptr =>
    ([CallAlignedAlloc (alignment b) 0; CallClearMem 0], Done (Some ptr))
  end.
Proof.
  intros Hi Hs Hzero.
  assert (Hprod : items * size = 0) by (destruct Hzero; subst; lia).
  pose proof (alignment_pos b) as Ha.
  rewrite (calloc_simd_allocates alloc b items size 0).
  - destruct (alloc (alignment b) 0); [|reflexivity].
    rewrite simd_clear_mem_nothing. reflexivity.
  - apply overflow_check_passes; try assumption.
    rewrite Hprod. unfold SIZE_MAX. lia.
  - rewrite Hprod. change (to_size_t 0) with 0.
    rewrite round_to_alignment_exact.
    + rewrite Z.div_small by lia. reflexivity.
    + exact Ha.
    + pose proof (alignment_is_size_t b).
      unfold rounding_fits, is_size_t, SIZE_MAX in *. lia.
Qed.

(** For a pair whose product fits the word, whether or not the rounding
    addition wraps: if the allocator grants the request for
    [total = round_to_alignment (items * size) alignment] bytes and [total]
    has no more chunks than the [int] counter can count, [calloc_simd] makes
    exactly that request and returns the granted block, at the same address,
    a multiple of the build's alignment, [total] bytes long, and zero in
    every byte. *)
Theorem calloc_simd_returns_allocated_block
    (b : build) (items size total : Z) (ptr : block) :
  allocator_contract alloc ->
  is_size_t items -> is_size_t size ->
  items * size <= SIZE_MAX ->
  round_to_alignment (items * size) (alignment b) = Done total ->
  alloc (alignment b) total = Some ptr ->
  total / registerSize b <= INT_MAX ->
  exists m,
    calloc_simd alloc b items size =
      ([CallAlignedAlloc (alignment b) total; CallClearMem total], Done (Some m)) /\
    base m = base ptr /\ base m mod alignment b = 0 /\
    len m = total /\ total mod alignment b = 0 /\ all_zero m.
Proof.
  intros Hc Hi Hs Hprod Hround Halloc Hsteps.
  assert (Hp : is_size_t (items * size)) by (unfold is_size_t in *; nia).
  destruct (round_to_alignment_wrapping_multiple (items * size) (alignment b)
              (alignment_pos b)) as (r & Hr & Hmul & Htotal).
  assert (r = total) by congruence. subst r.
  rewrite (calloc_simd_allocates alloc b items size total);
    [| apply overflow_check_passes; assumption
     | rewrite to_size_t_small by assumption; exact Hround].
  rewrite Halloc.
  destruct (Hc _ _ _ Halloc) as (Hlen & Hbase).
  destruct (simd_clear_mem_clears b ptr total) as (m & -> & Hb & Hl & Hz);
    [assumption | lia | apply aligned_for_stores; assumption | assumption |].
  exists m. split; [reflexivity|].
  split; [exact Hb|]. split; [rewrite Hb; exact Hbase|].
  split; [congruence|]. split; [exact Hmul|].
  intros off Hoff. rewrite Hz.
  destruct (Z.leb_spec 0 off), (Z.ltb_spec off total); simpl;
    try reflexivity; lia.
Qed.

(** A request that overflows neither in the product nor in the rounding,
    that the allocator grants, and whose rounded size has no more chunks than
    the [int] counter can count, is answered with the granted block, at least
    [items * size] bytes long and zero in every byte. *)
Theorem calloc_simd_zero_filled (b : build) (items size : Z) (ptr : block) :
  allocator_contract alloc ->
  is_size_t items -> is_size_t size ->
  items * size <= SIZE_MAX ->
  items * size + alignment b - 1 <= SIZE_MAX ->
  let total := (items * size + alignment b - 1) / alignment b * alignment b in
  alloc (alignment b) total = Some ptr ->
  total / registerSize b <= INT_MAX ->
  exists m,
    snd (calloc_simd alloc b items size) = Done (Some m) /\
    base m = base ptr /\ items * size <= len m /\ all_zero m.
Proof.
  intros Hc Hi Hs Hprod Hsum total Halloc Hsteps.
  destruct (calloc_simd_succeeds alloc b items size ptr Hc Hi Hs Hprod Hsum
              Halloc Hsteps) as (m & E & Hb & Hl & Hz).
  destruct (Hc _ _ _ Halloc) as (Hlen & _).
  destruct (round_up_bounds (items * size) (alignment b) (alignment_pos b))
    as (Hge & _); [unfold is_size_t in *; nia|].
  fold total in E, Hz, Hge.
  exists m. rewrite E. repeat split; try assumption.
  - lia.
  - intros off Hoff. rewrite Hz.
    destruct (Z.leb_spec 0 off), (Z.ltb_spec off total); simpl;
      try reflexivity; lia.
Qed.

(** Every request that [calloc_simd] sends to the allocator uses the build's
    alignment and a size that fits the word and is a multiple of that
    alignment, as [aligned_alloc] requires; this holds for wrapped sizes
    too. *)
Theorem calloc_simd_requests_well_formed (b : build) (items size a n : Z) :
  In (CallAlignedAlloc a n) (fst (calloc_simd alloc b items size)) ->
  a = alignment b /\ n mod a = 0 /\ is_size_t n.
Proof.
  intros Hin.
  destruct (negb (items =? 0) && (size >? SIZE_MAX / items)) eqn:Hguard.
  - unfold calloc_simd in Hin. rewrite Hguard in Hin. destruct Hin.
  - destruct (round_to_alignment_wrapping_multiple (to_size_t (items * size))
                (alignment b) (alignment_pos b))
      as (total & Hround & Hmul & Htotal).
    rewrite (calloc_simd_allocates alloc b items size total Hguard Hround) in Hin.
    assert (E : CallAlignedAlloc (alignment b) total = CallAlignedAlloc a n).
    { destruct (alloc (alignment b) total); simpl in Hin;
        intuition (try discriminate; auto). }
    injection E as <- <-. auto.
Qed.


End CallocFurther.

Lemma calloc_simd_rejects_iff_overflow_witness :
  SIZE_MAX < 2 ^ 32 * 2 ^ 32 <->
  calloc_simd generous_alloc AVX512F (2 ^ 32) (2 ^ 32) = ([], Done None).
Proof.
  apply (calloc_simd_rejects_iff_overflow generous_alloc AVX512F (2 ^ 32) (2 ^ 32));
    unfold is_size_t, SIZE_MAX; lia.
Defined.

Lemma calloc_simd_empty_request_witness :
  calloc_simd generous_alloc AVX2 0 8 =
  match generous_alloc (alignment AVX2) 0 with
  | None => ([CallAlignedAlloc (alignment AVX2) 0], Done None)
  | Some ptr =>
    ([CallAlignedAlloc (alignment AVX2) 0; CallClearMem 0], Done (Some ptr))
  end.
Proof.
  apply (calloc_simd_empty_request generous_alloc AVX2 0 8).
  - unfold is_size_t, SIZE_MAX. lia.
  - unfold is_size_t, SIZE_MAX. lia.
  - left. reflexivity.
Defined.

Lemma calloc_simd_returns_allocated_block_witness :
  exists m,
    calloc_simd generous_alloc NoVector 3 7 =
      ([CallAlignedAlloc (alignment NoVector) 32; CallClearMem 32], Done (Some m)) /\
    base m = base (mkBlock (4096 * 16) 32 (fun _ => 170)) /\
    base m mod alignment NoVector = 0 /\
    len m = 32 /\ 32 mod alignment NoVector = 0 /\ all_zero m.
Proof.
  apply (calloc_simd_returns_allocated_block generous_alloc NoVector 3 7 32
           (mkBlock (4096 * 16) 32 (fun _ => 170))).
  - exact generous_alloc_contract.
  - unfold is_size_t, SIZE_MAX. lia.
  - unfold is_size_t, SIZE_MAX. lia.
  - unfold SIZE_MAX. lia.
  - vm_compute. reflexivity.
  - reflexivity.
  - vm_compute. discriminate.
Defined.

Lemma calloc_simd_zero_filled_witness :
  exists m,
    snd (calloc_simd generous_alloc AVX2 1000 8) = Done (Some m) /\
    base m = 4096 * 32 /\ 1000 * 8 <= len m /\ all_zero m.
Proof.
  apply (calloc_simd_zero_filled generous_alloc AVX2 1000 8
           (mkBlock (4096 * 32) 8000 (fun _ => 170))).
  - exact generous_alloc_contract.
  - unfold is_size_t, SIZE_MAX. lia.
  - unfold is_size_t, SIZE_MAX. lia.
  - unfold SIZE_MAX. lia.
  - unfold SIZE_MAX. simpl. lia.
  - reflexivity.
  - vm_compute. discriminate.
Defined.

Lemma calloc_simd_requests_well_formed_witness :
  16 = alignment SSE2 /\ 0 mod 16 = 0 /\ is_size_t 0.
Proof.
  apply (calloc_simd_requests_well_formed exhausted_alloc SSE2 1 SIZE_MAX 16 0).
  vm_compute. left. reflexivity.
Defined.

